(** * enhanced_matplotlib_flower.py: the blooming-flower animation

    A shallow embedding of the animation driver [animate], of its two
    geometry helpers [get_rotation_matrix] and [create_petal_path], and of
    the module-level set-up that builds the artists.

    Conventions of the embedding:
    - Python integers are [Z] (frame numbers, start frames, durations) or
      [nat] (list indices, the phase number); [%] on a positive divisor is
      [Z.modulo], [//] is [Nat.div].
    - Python floats are real numbers ([R]): [/] is real division, [min] is
      [Rmin], [math.cos]/[math.sin]/[math.pi] are [cos]/[sin]/[PI].
      Rounding of IEEE doubles is outside the model.
    - The module-level globals and the artists they refer to are the fields
      of one [state] record; [animate] takes the state and returns the
      mutated one, together with whether the call returned or raised.
    - [matplotlib.path.Path] is a library class: the driver is written over
      an arbitrary constructor [mkPath]; [Path_init] is the constructor of
      the library, with its argument checks. *)

From Stdlib Require Import ZArith Reals Lra Lia List String Sorted.
From stdpp Require Import base list.
Import ListNotations.

(** ** Results of calls that may raise *)

Inductive exn : Type :=
| ValueError.

Inductive result (A : Type) : Type :=
| Ok (a : A)
| Raise (e : exn).
Arguments Ok {A} a.
Arguments Raise {A} e.

Definition is_ok {A} (r : result A) : bool :=
  match r with Ok _ => true | Raise _ => false end.

(** ** Geometry *)

Definition point : Type := (R * R)%type.
Definition matrix2 : Type := ((R * R) * (R * R))%type.

Module Geometry.
Local Open Scope R_scope.

(** [math.radians] *)
Definition radians (deg : R) : R := deg * PI / 180.

(** [np.array([[cos a, -sin a], [sin a, cos a]])] *)
Definition get_rotation_matrix (angle : R) : matrix2 :=
  ((cos angle, - sin angle),
   (sin angle, cos angle)).

(** [m @ np.array([x, y])] *)
Definition matvec (m : matrix2) (v : point) : point :=
  let '((a, b), (c, d)) := m in
  let '(x, y) := v in
  (a * x + b * y, c * x + d * y).

(** [list.insert(i, x)] for an index [0 <= i]: the element goes before
    position [i], or at the end when the list is shorter. *)
Definition py_insert {A} (i : nat) (x : A) (l : list A) : list A :=
  take i l ++ x :: drop i l.

(** The codes of [matplotlib.path.Path]. *)
Inductive code : Type :=
| STOP | MOVETO | LINETO | CURVE3 | CURVE4 | CLOSEPOLY.

Definition code_eqb (a b : code) : bool :=
  match a, b with
  | STOP, STOP | MOVETO, MOVETO | LINETO, LINETO
  | CURVE3, CURVE3 | CURVE4, CURVE4 | CLOSEPOLY, CLOSEPOLY => true
  | _, _ => false
  end.

Record Path : Type := mkPathRecord {
  vertices : list point;
  codes : list code
}.

(** [matplotlib.path.Path.__init__(vertices, codes)]: with a non-empty
    vertex array, the codes must be as many as the vertices and start with
    MOVETO; otherwise [ValueError] is raised. *)
Definition Path_init (verts : list point) (cs : list code) : result Path :=
  if (0 <? length verts)%nat then
    if negb (length cs =? length verts)%nat then Raise ValueError
    else match cs with
         | c :: _ => if code_eqb c MOVETO
                     then Ok (mkPathRecord verts cs)
                     else Raise ValueError
         | [] => Ok (mkPathRecord verts cs)
         end
  else Ok (mkPathRecord verts cs).

(** A constructor that stores what it is given, without any check. *)
Definition Path_store (verts : list point) (cs : list code) : result Path :=
  Ok (mkPathRecord verts cs).

(** [create_petal_path], lines 68-88.  [mk] is the [Path] constructor of the
    last line but one; its result type is left open so that the vertex list
    handed to it can be observed. *)
Definition create_petal_path {T} (mk : list point -> list code -> T)
    (center_x center_y angle_deg length width rotation : R) : T :=
  let angle_rad := radians (angle_deg + rotation) in
  let verts :=
    [ (center_x + length * cos (angle_rad - PI / 2),
       center_y + length * sin (angle_rad - PI / 2));
      (center_x + length * 1.2 * cos angle_rad,
       center_y + length * 1.2 * sin angle_rad);
      (center_x + length * cos (angle_rad + PI / 2),
       center_y + length * sin (angle_rad + PI / 2));
      (center_x + length * 0.8 * cos (angle_rad - PI / 2),
       center_y + length * 0.8 * sin (angle_rad - PI / 2)) ] in
  let mid_x := center_x + (length * 0.5) * cos angle_rad in
  let mid_y := center_y + (length * 0.5) * sin angle_rad in
  let verts :=
    py_insert 2 (mid_x - width / 2 * sin angle_rad,
                 mid_y + width / 2 * cos angle_rad) verts in
  let verts :=
    py_insert 3 (mid_x + width / 2 * sin angle_rad,
                 mid_y - width / 2 * cos angle_rad) verts in
  let codes := [MOVETO; CURVE3; CURVE3; CURVE3; CLOSEPOLY] in
  mk verts codes.

(** The vertex list and the code list that [create_petal_path] hands to the
    constructor. *)
Definition petal_verts := create_petal_path (fun verts _ => verts).
Definition petal_codes := create_petal_path (fun _ cs => cs) 0 0 0 0 0 0.

End Geometry.
Export Geometry.

(** ** Animation parameters (lines 36-51) *)

Definition num_petals : nat := 12.
Definition petal_length : R := 50.
Definition petal_width : R := 30.
Definition center_radius : R := 25.
Definition stem_height : R := 220.
Definition leaf_size : R := 30.
Definition total_frames : nat := 600.
Definition center_fade_duration : Z := 40.
Definition bloom_duration : Z := 40.
Definition bloom_stagger : Z := 20.
Definition unfurl_duration : Z := 20.
Definition unfurl_stagger : Z := 10.
Definition phase_delay : Z := 20.
Definition sway_speed : R := 0.03.
Definition label_duration : Z := 10.
Definition leaf_positions : list R := [-70; -10; 60]%R.

(** ** Artists and the animation state *)

(** [patches.PathPatch]: its path and its alpha (the colour never changes). *)
Record PathPatch : Type := mkPathPatch {
  patch_path : Path;
  patch_alpha : R
}.

(** [patches.Ellipse]: centre, width, height, alpha (the angle never
    changes). *)
Record Ellipse : Type := mkEllipse {
  ell_center : point;
  ell_width : R;
  ell_height : R;
  ell_alpha : R
}.

(** [plt.Line2D]: x data, y data, alpha. *)
Record Line2D : Type := mkLine2D {
  line_xdata : list R;
  line_ydata : list R;
  line_alpha : R
}.

(** [ax.text]: string, position, alpha. *)
Record Text : Type := mkText {
  text_string : string;
  text_position : point;
  text_alpha : R
}.

(** The globals of lines 54-60 and the artists of lines 90-128. *)
Record state : Type := mkState {
  frame_count : Z;
  current_petal_index : nat;
  animation_phase : nat;
  petal_bloom_starts : list Z;
  leaf_unfurl_starts : list Z;
  sway_angle : R;
  center_patch : R;              (* alpha of the centre disk *)
  petals : list PathPatch;
  stem_line : Line2D;
  leaves : list Ellipse;
  title_text : Text;
  phase_label : Text
}.

Definition with_frame_count (v : Z) (s : state) : state :=
  mkState v (current_petal_index s) (animation_phase s)
    (petal_bloom_starts s) (leaf_unfurl_starts s) (sway_angle s)
    (center_patch s) (petals s) (stem_line s) (leaves s) (title_text s)
    (phase_label s).
Definition with_current_petal_index (v : nat) (s : state) : state :=
  mkState (frame_count s) v (animation_phase s)
    (petal_bloom_starts s) (leaf_unfurl_starts s) (sway_angle s)
    (center_patch s) (petals s) (stem_line s) (leaves s) (title_text s)
    (phase_label s).
Definition with_animation_phase (v : nat) (s : state) : state :=
  mkState (frame_count s) (current_petal_index s) v
    (petal_bloom_starts s) (leaf_unfurl_starts s) (sway_angle s)
    (center_patch s) (petals s) (stem_line s) (leaves s) (title_text s)
    (phase_label s).
Definition with_petal_bloom_starts (v : list Z) (s : state) : state :=
  mkState (frame_count s) (current_petal_index s) (animation_phase s)
    v (leaf_unfurl_starts s) (sway_angle s)
    (center_patch s) (petals s) (stem_line s) (leaves s) (title_text s)
    (phase_label s).
Definition with_leaf_unfurl_starts (v : list Z) (s : state) : state :=
  mkState (frame_count s) (current_petal_index s) (animation_phase s)
    (petal_bloom_starts s) v (sway_angle s)
    (center_patch s) (petals s) (stem_line s) (leaves s) (title_text s)
    (phase_label s).
Definition with_sway_angle (v : R) (s : state) : state :=
  mkState (frame_count s) (current_petal_index s) (animation_phase s)
    (petal_bloom_starts s) (leaf_unfurl_starts s) v
    (center_patch s) (petals s) (stem_line s) (leaves s) (title_text s)
    (phase_label s).
Definition with_center_patch (v : R) (s : state) : state :=
  mkState (frame_count s) (current_petal_index s) (animation_phase s)
    (petal_bloom_starts s) (leaf_unfurl_starts s) (sway_angle s)
    v (petals s) (stem_line s) (leaves s) (title_text s)
    (phase_label s).
Definition with_petals (v : list PathPatch) (s : state) : state :=
  mkState (frame_count s) (current_petal_index s) (animation_phase s)
    (petal_bloom_starts s) (leaf_unfurl_starts s) (sway_angle s)
    (center_patch s) v (stem_line s) (leaves s) (title_text s)
    (phase_label s).
Definition with_stem_line (v : Line2D) (s : state) : state :=
  mkState (frame_count s) (current_petal_index s) (animation_phase s)
    (petal_bloom_starts s) (leaf_unfurl_starts s) (sway_angle s)
    (center_patch s) (petals s) v (leaves s) (title_text s)
    (phase_label s).
Definition with_leaves (v : list Ellipse) (s : state) : state :=
  mkState (frame_count s) (current_petal_index s) (animation_phase s)
    (petal_bloom_starts s) (leaf_unfurl_starts s) (sway_angle s)
    (center_patch s) (petals s) (stem_line s) v (title_text s)
    (phase_label s).
Definition with_title_text (v : Text) (s : state) : state :=
  mkState (frame_count s) (current_petal_index s) (animation_phase s)
    (petal_bloom_starts s) (leaf_unfurl_starts s) (sway_angle s)
    (center_patch s) (petals s) (stem_line s) (leaves s) v
    (phase_label s).
Definition with_phase_label (v : Text) (s : state) : state :=
  mkState (frame_count s) (current_petal_index s) (animation_phase s)
    (petal_bloom_starts s) (leaf_unfurl_starts s) (sway_angle s)
    (center_patch s) (petals s) (stem_line s) (leaves s) (title_text s)
    v.

Definition set_text (str : string) (t : Text) : Text :=
  mkText str (text_position t) (text_alpha t).
Definition set_position (p : point) (t : Text) : Text :=
  mkText (text_string t) p (text_alpha t).
Definition set_text_alpha (a : R) (t : Text) : Text :=
  mkText (text_string t) (text_position t) a.

(** [l[i]] for an index within the list.  The lists indexed by the driver
    keep their set-up lengths (lemmas [animate_lengths] and
    [animate_petals_length]), so every index the driver uses is within the
    list; outside the list the embedding reads 0 where Python would
    raise. *)
Definition zget (l : list Z) (i : nat) : Z := default 0%Z (l !! i).

(** ** Set-up and the driver, over a [Path] constructor *)

Section Driver.

Variable mkPath : list point -> list code -> result Path.

(** [for i, x in enumerate(xs): body], where the body mutates the artist
    [x] and may raise: the artists before the raising one keep their new
    values, the others are left as they were. *)
Fixpoint for_enumerate {A} (body : nat -> A -> result A) (i : nat)
    (xs : list A) : list A * result unit :=
  match xs with
  | [] => ([], Ok tt)
  | x :: rest =>
      match body i x with
      | Raise e => (x :: rest, Raise e)
      | Ok x' =>
          let '(rest', r) := for_enumerate body (S i) rest in
          (x' :: rest', r)
      end
  end.

(** Lines 95-103: the petals, each with a zero-size path and alpha 0. *)
Fixpoint init_petals (i : nat) (n : nat) : result (list PathPatch) :=
  match n with
  | O => Ok []
  | S n' =>
      let angle := (INR i * (360 / INR num_petals))%R in
      match create_petal_path mkPath 0 0 angle 0 0 0 with
      | Raise e => Raise e
      | Ok path =>
          match init_petals (S i) n' with
          | Raise e => Raise e
          | Ok rest => Ok (mkPathPatch path 0 :: rest)
          end
      end
  end.

(** Lines 109-120: the six leaves, left and right at each position. *)
Definition init_leaves : list Ellipse :=
  flat_map (fun pos => [mkEllipse (-40, pos)%R 0 0 0;
                        mkEllipse (40, pos)%R 0 0 0]) leaf_positions.

(** The state once the module body has run, given the petals. *)
Definition init_state (petals0 : list PathPatch) : state :=
  {| frame_count := 0;
     current_petal_index := 0;
     animation_phase := 0;
     petal_bloom_starts := replicate num_petals 0%Z;
     leaf_unfurl_starts := replicate (num_petals / 2 * 2) 0%Z;
     sway_angle := 0;
     center_patch := 0;
     petals := petals0;
     stem_line := mkLine2D [] [] 0;
     leaves := init_leaves;
     title_text := mkText "Animated Blooming Flower" (0, 120)%R 0;
     phase_label := mkText "" (0, -0.05)%R 0 |}.

(** Lines 53-128. *)
Definition setup : result state :=
  match init_petals 0 num_petals with
  | Raise e => Raise e
  | Ok petals0 => Ok (init_state petals0)
  end.

(** The fade pattern of the phase label in phases 1 and 2 (lines 155-156
    and 186-187). *)
Definition label_fade (frame : Z) : R :=
  let label_progress :=
    (IZR (frame mod (label_duration * 3)) / IZR label_duration)%R in
  if Rlt_dec label_progress 1 then Rmin label_progress 1
  else Rmax (2 - label_progress) 0.

(** Phase 0, lines 141-150. *)
Definition animate_center (frame : Z) (s : state) : state :=
  let progress := Rmin (IZR frame / IZR center_fade_duration) 1 in
  let s := with_center_patch progress s in
  let s := with_title_text (set_text_alpha progress (title_text s)) s in
  let s := with_phase_label (set_text "Center Appearing..." (phase_label s)) s in
  let s := with_phase_label
             (set_text_alpha
                (if (frame <? label_duration * 2)%Z
                 then Rmin (IZR (frame mod (label_duration * 2))
                            / IZR label_duration) 1
                 else 0%R) (phase_label s)) s in
  if (center_fade_duration + phase_delay <=? frame)%Z then
    let s := with_animation_phase 1 s in
    let s := with_current_petal_index 0 s in
    with_frame_count 0 s
  else s.

(** Body of the petal loop of phase 1, lines 159-171. *)
Definition bloom_petal (frame : Z) (starts : list Z) (i : nat)
    (petal : PathPatch) : result PathPatch :=
  if (0 <? zget starts i)%Z then
    let elapsed := (frame - zget starts i)%Z in
    let progress := Rmin (IZR elapsed / IZR bloom_duration) 1 in
    let alpha := progress in
    if Rlt_dec 0 progress then
      match create_petal_path mkPath 0 0 (INR i * (360 / INR num_petals))
              (petal_length * progress) (petal_width * progress)
              (progress * 15) with
      | Raise e => Raise e
      | Ok path => Ok (mkPathPatch path alpha)
      end
    else Ok (mkPathPatch (patch_path petal) 0)
  else Ok petal.

(** Phase 1, lines 154-181. *)
Definition animate_petals (frame : Z) (s : state) : state * result unit :=
  let s := with_phase_label (set_text "Petals Blooming..." (phase_label s)) s in
  let s := with_phase_label
             (set_text_alpha (label_fade frame) (phase_label s)) s in
  let '(ps, r) :=
    for_enumerate (bloom_petal frame (petal_bloom_starts s)) 0 (petals s) in
  let s := with_petals ps s in
  match r with
  | Raise e => (s, Raise e)
  | Ok _ =>
      let s :=
        if (frame mod bloom_stagger =? 0)%Z
           && (current_petal_index s <? num_petals)%nat
        then
          let s := with_petal_bloom_starts
                     (<[current_petal_index s := frame]>
                        (petal_bloom_starts s)) s in
          with_current_petal_index (current_petal_index s + 1) s
        else s in
      let s :=
        if (num_petals <=? current_petal_index s)%nat
           && (bloom_duration <=? frame - List.last (petal_bloom_starts s) 0)%Z
        then with_frame_count 0 (with_animation_phase 2 s)
        else s in
      (s, Ok tt)
  end.

(** The leaf loop of phase 2, lines 195-208: it sets start frames and
    resizes the leaves that have started. *)
Fixpoint unfurl_leaves (frame : Z) (i : nat) (starts : list Z)
    (ls : list Ellipse) : list Z * list Ellipse :=
  match ls with
  | [] => (starts, [])
  | leaf :: rest =>
      let side_delay := if (i mod 2 =? 0)%nat then 0%Z else unfurl_stagger in
      let starts :=
        if (zget starts i =? 0)%Z
           && (frame mod unfurl_duration =? side_delay)%Z
        then <[i := frame]> starts else starts in
      let leaf :=
        if (0 <? zget starts i)%Z then
          let elapsed := (frame - zget starts i)%Z in
          let progress := Rmin (IZR elapsed / IZR unfurl_duration) 1 in
          let size := (leaf_size * progress)%R in
          let alpha := progress in
          mkEllipse (ell_center leaf) size (size * 0.7)%R alpha
        else leaf in
      let '(starts', rest') := unfurl_leaves frame (S i) starts rest in
      (starts', leaf :: rest')
  end.

(** Phase 2, lines 185-213. *)
Definition animate_stem_leaves (frame : Z) (s : state) : state :=
  let s := with_phase_label (set_text "Leaves Unfurling..." (phase_label s)) s in
  let s := with_phase_label
             (set_text_alpha (label_fade frame) (phase_label s)) s in
  let s :=
    if (frame =? 0)%Z
    then with_stem_line (mkLine2D [0; 0] [center_radius; stem_height] 1)%R s
    else s in
  let '(starts, ls) :=
    unfurl_leaves frame 0 (leaf_unfurl_starts s) (leaves s) in
  let s := with_leaves ls (with_leaf_unfurl_starts starts s) in
  if forallb (fun i => (0 <? zget (leaf_unfurl_starts s) i)%Z
                       && (unfurl_duration
                           <=? frame - zget (leaf_unfurl_starts s) i)%Z)
       (seq 0 (length (leaves s)))
  then with_frame_count 0 (with_animation_phase 3 s)
  else s.

(** Body of the petal loop of phase 3, lines 222-229. *)
Definition sway_petal (rotation_matrix : matrix2) (i : nat)
    (petal : PathPatch) : result PathPatch :=
  let base_angle := (INR i * (360 / INR num_petals))%R in
  let dx := (petal_length / 2 * cos (radians base_angle))%R in
  let dy := (petal_length / 2 * sin (radians base_angle))%R in
  let rotated := matvec rotation_matrix (dx, dy) in
  match create_petal_path mkPath (fst rotated) (snd rotated) base_angle
          petal_length petal_width 0 with
  | Raise e => Raise e
  | Ok path => Ok (mkPathPatch path 1)
  end.

(** Body of the leaf loop of phase 3, lines 233-240. *)
Definition sway_leaf (rotation_matrix : matrix2) (i : nat)
    (leaf : Ellipse) : Ellipse :=
  let pos_y := default 0%R (leaf_positions !! (i / 2)%nat) in
  let side := if (i mod 2 =? 0)%nat then (-50)%R else 50%R in
  let rotated := matvec rotation_matrix (side, pos_y) in
  mkEllipse rotated leaf_size (leaf_size * 0.7)%R 1.

(** Phase 3, lines 217-244. *)
Definition animate_sway (rotation_matrix : matrix2) (s : state)
    : state * result unit :=
  let s := with_phase_label (set_text "Flower Swaying..." (phase_label s)) s in
  let s := with_phase_label (set_text_alpha 0.7 (phase_label s)) s in
  let '(ps, r) := for_enumerate (sway_petal rotation_matrix) 0 (petals s) in
  let s := with_petals ps s in
  match r with
  | Raise e => (s, Raise e)
  | Ok _ =>
      let s := with_leaves (imap (sway_leaf rotation_matrix) (leaves s)) s in
      let title_sway := (sin (sway_angle s * 2) * 5)%R in
      let s := with_title_text
                 (set_position (title_sway * 0.01, 1.1)%R (title_text s)) s in
      (s, Ok tt)
  end.

(** [animate], lines 130-250.  [local_sway] (line 133) is assigned and
    never read, so it has no counterpart here; the artist list returned on
    line 250 is the artists of the state itself.  When a loop raises, the
    statements after it, the override of lines 247-248 included, are not
    executed, and the mutations made so far stay. *)
Definition animate (frame : Z) (s : state) : state * result unit :=
  let s := with_frame_count frame s in
  let s := with_sway_angle (sway_angle s + sway_speed) s in
  let rotation_matrix := get_rotation_matrix (sway_angle s) in
  let '(s, r) :=
    match animation_phase s with
    | 0 => (animate_center frame s, Ok tt)
    | 1 => animate_petals frame s
    | 2 => (animate_stem_leaves frame s, Ok tt)
    | 3 => animate_sway rotation_matrix s
    | _ => (s, Ok tt)
    end in
  match r with
  | Raise e => (s, Raise e)
  | Ok _ =>
      let center_alpha := if (0 <? animation_phase s)%nat then 1%R else 0%R in
      (with_center_patch center_alpha s, Ok tt)
  end.

(** The host calls the driver once per frame.  [run] applies every call,
    whether or not an earlier one raised; [run_ok] tells whether all
    returned. *)
Fixpoint run (frames : list Z) (s : state) : state :=
  match frames with
  | [] => s
  | f :: rest => run rest (fst (animate f s))
  end.

Fixpoint run_ok (frames : list Z) (s : state) : bool :=
  match frames with
  | [] => true
  | f :: rest => is_ok (snd (animate f s)) && run_ok rest (fst (animate f s))
  end.

End Driver.

(** Frames in increasing order, as the host delivers them: 0, 1, ..., n-1. *)
Definition frames_upto (n : nat) : list Z := map Z.of_nat (seq 0 n).

(** ** The integer part of the state

    The phase, the petal index and the two start-frame lists never depend
    on a real-valued field.  [control] is that part of the state and
    [ctl_step] the driver restricted to it, for a call that returns;
    [animate_ctl] below proves that [animate] acts on it as [ctl_step]. *)

Record control : Type := mkControl {
  c_phase : nat;
  c_index : nat;
  c_pstarts : list Z;
  c_lstarts : list Z;
  c_nleaves : nat
}.

Definition ctl (s : state) : control :=
  mkControl (animation_phase s) (current_petal_index s)
    (petal_bloom_starts s) (leaf_unfurl_starts s) (length (leaves s)).

Fixpoint unfurl_starts (frame : Z) (i : nat) (starts : list Z) (n : nat)
    : list Z :=
  match n with
  | O => starts
  | S n' =>
      let side_delay := if (i mod 2 =? 0)%nat then 0%Z else unfurl_stagger in
      let starts :=
        if (zget starts i =? 0)%Z
           && (frame mod unfurl_duration =? side_delay)%Z
        then <[i := frame]> starts else starts in
      unfurl_starts frame (S i) starts n'
  end.

Definition ctl_step (frame : Z) (c : control) : control :=
  match c_phase c with
  | 0 =>
      if (center_fade_duration + phase_delay <=? frame)%Z
      then mkControl 1 0 (c_pstarts c) (c_lstarts c) (c_nleaves c)
      else c
  | 1 =>
      let '(starts, idx) :=
        if (frame mod bloom_stagger =? 0)%Z && (c_index c <? num_petals)%nat
        then (<[c_index c := frame]> (c_pstarts c), c_index c + 1)
        else (c_pstarts c, c_index c) in
      let ph :=
        if (num_petals <=? idx)%nat
           && (bloom_duration <=? frame - List.last starts 0)%Z
        then 2 else 1 in
      mkControl ph idx starts (c_lstarts c) (c_nleaves c)
  | 2 =>
      let starts := unfurl_starts frame 0 (c_lstarts c) (c_nleaves c) in
      let ph :=
        if forallb (fun i => (0 <? zget starts i)%Z
                             && (unfurl_duration <=? frame - zget starts i)%Z)
             (seq 0 (c_nleaves c))
        then 3 else 2 in
      mkControl ph (c_index c) (c_pstarts c) starts (c_nleaves c)
  | _ => c
  end.

Fixpoint ctl_run (frames : list Z) (c : control) : control :=
  match frames with
  | [] => c
  | f :: rest => ctl_run rest (ctl_step f c)
  end.

Definition init_control : control :=
  mkControl 0 0 (replicate num_petals 0%Z)
    (replicate (num_petals / 2 * 2) 0%Z) 6.

(** ** The outline as the specification words it

    Written from the specification's sentence, to be compared with
    [petal_verts]: a base-left point, two bulge points offset perpendicular
    to the axis at mid-length, the tip at 1.2 times the length along the
    axis, and a base-right point. *)
Definition spec_outline
    (center_x center_y angle_deg length width rotation : R) : list point :=
  let t := radians (angle_deg + rotation) in
  let mid_x := (center_x + length / 2 * cos t)%R in
  let mid_y := (center_y + length / 2 * sin t)%R in
  [ (center_x + length * cos (t - PI / 2),
     center_y + length * sin (t - PI / 2))%R;
    (mid_x - width / 2 * sin t, mid_y + width / 2 * cos t)%R;
    (mid_x + width / 2 * sin t, mid_y - width / 2 * cos t)%R;
    (center_x + length * 1.2 * cos t, center_y + length * 1.2 * sin t)%R;
    (center_x + length * cos (t + PI / 2),
     center_y + length * sin (t + PI / 2))%R ].

(** Squared distance between two points. *)
Definition dist2 (p q : point) : R :=
  ((fst p - fst q) * (fst p - fst q) + (snd p - snd q) * (snd p - snd q))%R.

(** Distance between two points. *)
Definition dist (p q : point) : R := sqrt (dist2 p q).

(** The progress of a petal that started at [start], lines 160-161, and
    the length its outline is built with, line 166. *)
Definition bloom_progress (frame start : Z) : R :=
  Rmin (IZR (frame - start) / IZR bloom_duration) 1.



(** The petals built by the set-up when the constructor stores its
    arguments: zero-size outlines, alpha 0. *)
Definition zero_petals : list PathPatch :=
  map (fun i => mkPathPatch
                  (mkPathRecord
                     (petal_verts 0 0 (INR i * (360 / INR num_petals)) 0 0 0)
                     petal_codes) 0)
      (seq 0 num_petals).

(** ** Invariants of the integer part *)

(** A petal start frame is set only once the Petals phase has begun, and
    only below the index of the next petal to start. *)
Definition starts_inv (c : control) : Prop :=
  forall i v, c_pstarts c !! i = Some v -> v <> 0%Z ->
              c_phase c <> 0 /\ (i < c_index c)%nat.

(** Every start frame that is set in [c] is the same in [c']. *)
Definition starts_stable (c c' : control) : Prop :=
  (forall i v, c_pstarts c !! i = Some v -> v <> 0%Z ->
               c_pstarts c' !! i = Some v)
  /\ (forall i v, c_lstarts c !! i = Some v -> v <> 0%Z ->
                  c_lstarts c' !! i = Some v).

(** ** The phases of the in-order run *)

(** The phase after the first [n] frames 0, ..., n-1, as the driver's
    thresholds give it: the Petals phase is entered by the call at frame
    60, the StemLeaves phase at frame 340, the Sway phase at frame 380. *)
Definition phase_after (n : nat) : nat :=
  if (n <=? 60)%nat then 0
  else if (n <=? 340)%nat then 1
  else if (n <=? 380)%nat then 2
  else 3.

(** The frames of a host that repeats the animation
    ([FuncAnimation(..., frames=total_frames, repeat=True)]): 0, ..., 599,
    0, ..., 599, and so on; the first [n] of them. *)
Definition frames_repeating (n : nat) : list Z :=
  map (fun k => Z.of_nat (k mod total_frames)) (seq 0 n).

(** A start frame that is set is a frame at which the trigger condition
    held: a multiple of [bloom_stagger] for a petal; for a leaf, the index
    is that of a leaf and the frame has the leaf's offset within the
    [unfurl_duration] window. *)
Definition side_delay (i : nat) : Z :=
  if (i mod 2 =? 0)%nat then 0%Z else unfurl_stagger.

Definition starts_residues (c : control) : Prop :=
  (forall i v, c_pstarts c !! i = Some v -> v <> 0%Z ->
               (v mod bloom_stagger = 0)%Z)
  /\ (forall i v, c_lstarts c !! i = Some v -> v <> 0%Z ->
                  (i < c_nleaves c)%nat
                  /\ (v mod unfurl_duration = side_delay i)%Z).

(** * Properties *)

(** ** Loops *)

Section DriverFacts.

Variable mkPath : list point -> list code -> result Path.


Lemma for_enumerate_ok {A} (body : nat -> A -> result A) xs i :
  (forall j x, is_ok (body j x) = true) ->
  (for_enumerate body i xs).2 = Ok tt.
Proof.
  intros Hb; revert i; induction xs as [|x xs IH]; intros i; simpl;
    [reflexivity|].
  specialize (Hb i x).
  destruct (body i x) as [x'|e]; simpl in *; [|discriminate].
  specialize (IH (S i)).
  destruct (for_enumerate body (S i) xs) as [rest' r]; simpl in *.
  exact IH.
Qed.


Lemma unfurl_leaves_starts frame ls i starts :
  (unfurl_leaves frame i starts ls).1 = unfurl_starts frame i starts (length ls).
Proof.
  revert i starts; induction ls as [|leaf ls IH]; intros i starts; simpl;
    [reflexivity|].
  match goal with
  | |- context [unfurl_leaves frame (S i) ?st ls] =>
      specialize (IH (S i) st);
      destruct (unfurl_leaves frame (S i) st ls) as [starts' rest']
  end.
  simpl in *. exact IH.
Qed.

Lemma unfurl_leaves_length frame ls i starts :
  length (unfurl_leaves frame i starts ls).2 = length ls.
Proof.
  revert i starts; induction ls as [|leaf ls IH]; intros i starts; simpl;
    [reflexivity|].
  match goal with
  | |- context [unfurl_leaves frame (S i) ?st ls] =>
      specialize (IH (S i) st);
      destruct (unfurl_leaves frame (S i) st ls) as [starts' rest']
  end.
  simpl in *. now rewrite IH.
Qed.

End DriverFacts.

(** ** The driver on the integer part of the state *)

(** Projections of updated states, without unfolding anything else. *)
Ltac simpl_state :=
  unfold ctl in *;
  cbn [frame_count current_petal_index animation_phase petal_bloom_starts
       leaf_unfurl_starts sway_angle center_patch petals stem_line leaves
       title_text phase_label
       with_frame_count with_current_petal_index with_animation_phase
       with_petal_bloom_starts with_leaf_unfurl_starts with_sway_angle
       with_center_patch with_petals with_stem_line with_leaves
       with_title_text with_phase_label
       c_phase c_index c_pstarts c_lstarts c_nleaves fst snd] in *.

Lemma ctl_with_center_patch v s : ctl (with_center_patch v s) = ctl s.
Proof. reflexivity. Qed.

Lemma ctl_with_sway_frame a f s :
  ctl (with_sway_angle a (with_frame_count f s)) = ctl s.
Proof. reflexivity. Qed.

Lemma animate_center_ctl frame s :
  animation_phase s = 0 ->
  ctl (animate_center frame s) = ctl_step frame (ctl s).
Proof.
  intros Hph. unfold animate_center, ctl_step. cbn.
  rewrite Hph.
  destruct (_ <=? frame)%Z; unfold ctl; cbn; rewrite ?Hph; reflexivity.
Qed.

Lemma animate_stem_leaves_ctl frame s :
  animation_phase s = 2 ->
  ctl (animate_stem_leaves frame s) = ctl_step frame (ctl s).
Proof.
  intros Hph. unfold animate_stem_leaves, ctl_step. cbn. rewrite Hph.
  set (s0 := if (frame =? 0)%Z then _ else _).
  assert (Hl : leaf_unfurl_starts s0 = leaf_unfurl_starts s
               /\ leaves s0 = leaves s
               /\ current_petal_index s0 = current_petal_index s
               /\ petal_bloom_starts s0 = petal_bloom_starts s
               /\ animation_phase s0 = 2).
  { subst s0. destruct (frame =? 0)%Z; cbn; rewrite ?Hph; auto. }
  destruct Hl as (Hl1 & Hl2 & Hl3 & Hl4 & Hl5).
  pose proof (unfurl_leaves_starts frame (leaves s0) 0
                (leaf_unfurl_starts s0)) as H1.
  pose proof (unfurl_leaves_length frame (leaves s0) 0
                (leaf_unfurl_starts s0)) as H2.
  destruct (unfurl_leaves _ _ _ _) as [starts ls]. simpl in H1, H2.
  cbn. rewrite H2, Hl2, H1, Hl2, Hl1.
  destruct (forallb _ _); cbn; unfold ctl; cbn;
    rewrite ?H2, ?Hl2, ?Hl3, ?Hl4, ?Hl5; reflexivity.
Qed.

(** Whatever the constructor does, a call acts on the integer part of the
    state as [ctl_step] when it returns, and leaves it alone when it
    raises. *)
Section ControlAny.

Variable mkPath : list point -> list code -> result Path.

Lemma animate_petals_ctl_any frame s :
  animation_phase s = 1 ->
  ctl (animate_petals mkPath frame s).1 =
  if is_ok (animate_petals mkPath frame s).2
  then ctl_step frame (ctl s) else ctl s.
Proof.
  intros Hph. unfold animate_petals, ctl_step.
  destruct (for_enumerate _ _ _) as [ps r]. simpl_state.
  destruct r as [u|e]; simpl_state; cbn [is_ok]; [|reflexivity].
  rewrite Hph.
  destruct ((frame mod bloom_stagger =? 0)%Z
            && (current_petal_index s <? num_petals)%nat); simpl_state;
  match goal with |- context [(?a && ?b)%bool] =>
    destruct (a && b)%bool end; simpl_state; rewrite ?Hph; reflexivity.
Qed.

Lemma animate_sway_ctl_any m s :
  animation_phase s = 3 ->
  ctl (animate_sway mkPath m s).1 = ctl s.
Proof.
  intros Hph. unfold animate_sway. simpl_state.
  destruct (for_enumerate _ _ _) as [ps r]. simpl_state.
  destruct r; simpl_state; rewrite ?length_imap; reflexivity.
Qed.

Lemma animate_ctl_any frame s :
  ctl (animate mkPath frame s).1 =
  if is_ok (animate mkPath frame s).2
  then ctl_step frame (ctl s) else ctl s.
Proof.
  unfold animate.
  set (s1 := with_sway_angle _ _) in *.
  assert (Hc : ctl s1 = ctl s) by reflexivity.
  assert (Hp : animation_phase s1 = animation_phase s) by reflexivity.
  clearbody s1.
  destruct (animation_phase s1) as [|[|[|[|p]]]] eqn:Hph.
  - cbn [fst snd is_ok].
    rewrite ctl_with_center_patch, animate_center_ctl, Hc; auto.
  - pose proof (animate_petals_ctl_any frame s1 Hph) as H.
    destruct (animate_petals _ _ _) as [s' r]. cbn [fst snd] in *.
    destruct r; cbn [fst snd is_ok] in *;
      rewrite ?ctl_with_center_patch, H, Hc; reflexivity.
  - cbn [fst snd is_ok].
    rewrite ctl_with_center_patch, animate_stem_leaves_ctl, Hc; auto.
  - match goal with |- context [animate_sway _ ?m _] =>
      pose proof (animate_sway_ctl_any m s1 Hph) as H end.
    destruct (animate_sway _ _ _) as [s' r]. cbn [fst snd] in *.
    assert (Hs : ctl_step frame (ctl s) = ctl s).
    { unfold ctl_step. change (c_phase (ctl s)) with (animation_phase s).
    rewrite <- Hp. reflexivity. }
    destruct r; cbn [fst snd is_ok] in *;
      rewrite ?ctl_with_center_patch, H, Hc, ?Hs; reflexivity.
  - cbn [fst snd is_ok]. rewrite ctl_with_center_patch, Hc.
    unfold ctl_step. change (c_phase (ctl s)) with (animation_phase s).
    rewrite <- Hp. reflexivity.
Qed.

End ControlAny.

Section Control.

Variable mkPath : list point -> list code -> result Path.

(** The constructor accepts every outline it is given. *)
Hypothesis mkPath_accepts : forall verts cs, is_ok (mkPath verts cs) = true.

Lemma bloom_petal_ok frame starts i petal :
  is_ok (bloom_petal mkPath frame starts i petal) = true.
Proof.
  unfold bloom_petal, create_petal_path.
  destruct (0 <? zget starts i)%Z; [|reflexivity].
  destruct (Rlt_dec _ _); [|reflexivity].
  match goal with |- context [mkPath ?v ?c] =>
    pose proof (mkPath_accepts v c) as H; destruct (mkPath v c) end;
    [reflexivity|discriminate].
Qed.

Lemma sway_petal_ok m i petal :
  is_ok (sway_petal mkPath m i petal) = true.
Proof.
  unfold sway_petal, create_petal_path.
  match goal with |- context [mkPath ?v ?c] =>
    pose proof (mkPath_accepts v c) as H; destruct (mkPath v c) end;
    [reflexivity|discriminate].
Qed.

Lemma animate_petals_returns frame s :
  (animate_petals mkPath frame s).2 = Ok tt.
Proof.
  unfold animate_petals.
  match goal with |- context [for_enumerate ?b ?i ?xs] =>
    pose proof (for_enumerate_ok b xs i (bloom_petal_ok _ _)) as H;
    destruct (for_enumerate b i xs) as [ps r] end.
  simpl in H; subst r. reflexivity.
Qed.

Lemma animate_sway_returns m s :
  (animate_sway mkPath m s).2 = Ok tt.
Proof.
  unfold animate_sway.
  match goal with |- context [for_enumerate ?b ?i ?xs] =>
    pose proof (for_enumerate_ok b xs i (sway_petal_ok _)) as H;
    destruct (for_enumerate b i xs) as [ps r] end.
  simpl in H; subst r. reflexivity.
Qed.

Lemma animate_returns frame s :
  (animate mkPath frame s).2 = Ok tt.
Proof.
  unfold animate. cbn [animation_phase with_sway_angle with_frame_count].
  destruct (animation_phase s) as [|[|[|[|p]]]]; try reflexivity.
  - pose proof (animate_petals_returns frame
      (with_sway_angle (sway_angle (with_frame_count frame s) + sway_speed)
         (with_frame_count frame s))) as H.
    destruct (animate_petals _ _ _) as [s' r]. simpl in H; subst r.
    reflexivity.
  - match goal with |- context [animate_sway _ ?m ?s0] =>
      pose proof (animate_sway_returns m s0) as H;
      destruct (animate_sway mkPath m s0) as [s' r] end.
    simpl in H; subst r. reflexivity.
Qed.

Lemma run_returns frames s : run_ok mkPath frames s = true.
Proof.
  revert s; induction frames as [|f frames IH]; intros s; simpl;
    [reflexivity|].
  rewrite animate_returns, IH. reflexivity.
Qed.

Lemma animate_ctl frame s :
  ctl (animate mkPath frame s).1 = ctl_step frame (ctl s).
Proof.
  rewrite animate_ctl_any, animate_returns. reflexivity.
Qed.

Lemma run_ctl frames s :
  ctl (run mkPath frames s) = ctl_run frames (ctl s).
Proof.
  revert s; induction frames as [|f frames IH]; intros s; simpl;
    [reflexivity|].
  rewrite IH, animate_ctl. reflexivity.
Qed.

End Control.

(** ** The petal outline *)

Section Outline.
Local Open Scope R_scope.

Lemma cos_minus_PI2 t : cos (t - PI / 2) = sin t.
Proof. rewrite cos_minus, cos_PI2, sin_PI2. ring. Qed.

Lemma sin_minus_PI2 t : sin (t - PI / 2) = - cos t.
Proof. rewrite sin_minus, cos_PI2, sin_PI2. ring. Qed.

Lemma cos_plus_PI2 t : cos (t + PI / 2) = - sin t.
Proof. rewrite cos_plus, cos_PI2, sin_PI2. ring. Qed.

Lemma sin_plus_PI2 t : sin (t + PI / 2) = cos t.
Proof. rewrite sin_plus, cos_PI2, sin_PI2. ring. Qed.

Lemma radians_0 : radians (0 + 0) = 0.
Proof. unfold radians. lra. Qed.

(** Six vertices are handed to the constructor, with five codes. *)
Lemma petal_counts cx cy a l w r :
  length (petal_verts cx cy a l w r) = 6%nat /\ length petal_codes = 5%nat.
Proof. split; reflexivity. Qed.

(** C1 (refuted on the code): under the argument checks of
    [matplotlib.path.Path], every call of [create_petal_path] raises
    [ValueError], because six vertices come with five codes; hence the
    set-up of the petals raises at its first call and no frame is ever
    drawn. *)
Theorem create_petal_path_raises :
  (forall cx cy a l w r,
      create_petal_path Path_init cx cy a l w r = Raise ValueError)
  /\ setup Path_init = Raise ValueError.
Proof. split; [intros|]; reflexivity. Qed.

(** C9 (as stated, refuted): at angle 0 with length and width 10 the second
    vertex of the outline is the tip (12, 0), where the stated order has a
    bulge point (5, 5), and the outline has six vertices, not five. *)
Lemma outline_order_counterexample :
  petal_verts 0 0 0 10 10 0 !! 1%nat = Some (12, 0)
  /\ spec_outline 0 0 0 10 10 0 !! 1%nat = Some (5, 5)
  /\ length (petal_verts 0 0 0 10 10 0) = 6%nat
  /\ length (spec_outline 0 0 0 10 10 0) = 5%nat
  /\ petal_verts 0 0 0 10 10 0 <> spec_outline 0 0 0 10 10 0.
Proof.
  assert (H1 : petal_verts 0 0 0 10 10 0 !! 1%nat = Some (12, 0)).
  { unfold petal_verts, create_petal_path, py_insert.
    cbn [take drop app lookup list_lookup].
    rewrite radians_0, cos_0, sin_0. do 2 f_equal; lra. }
  assert (H2 : spec_outline 0 0 0 10 10 0 !! 1%nat = Some (5, 5)).
  { unfold spec_outline. cbn [lookup list_lookup].
    rewrite radians_0, cos_0, sin_0. do 2 f_equal; lra. }
  repeat split; try assumption; try reflexivity.
  intros H. rewrite H, H2 in H1. injection H1 as Hx Hy. lra.
Qed.

(** The vertices in the frame of the petal: axis (cos t, sin t) and its
    perpendicular. *)
Lemma petal_verts_frame cx cy a l w r :
  let t := radians (a + r) in
  petal_verts cx cy a l w r =
    [ (cx + l * sin t, cy - l * cos t);
      (cx + 1.2 * l * cos t, cy + 1.2 * l * sin t);
      (cx + l / 2 * cos t - w / 2 * sin t, cy + l / 2 * sin t + w / 2 * cos t);
      (cx + l / 2 * cos t + w / 2 * sin t, cy + l / 2 * sin t - w / 2 * cos t);
      (cx - l * sin t, cy + l * cos t);
      (cx + 0.8 * l * sin t, cy - 0.8 * l * cos t) ].
Proof.
  intros t. unfold petal_verts, create_petal_path, py_insert.
  cbn [take drop app]. fold t.
  rewrite cos_minus_PI2, sin_minus_PI2, cos_plus_PI2, sin_plus_PI2.
  repeat (f_equal; try lra).
Qed.

(** C9 (amended): for every input the vertex list handed to the path
    constructor is, in this order, the base-left point, the tip at 1.2
    times the length along the axis, the two bulge points at mid-length
    offset by half the width on either side of the axis, the base-right
    point, and a sixth point at 0.8 times the length towards base-left;
    the codes are MOVETO, three CURVE3 and CLOSEPOLY; and with length and
    width 0 every vertex is the centre. *)
Theorem petal_verts_order cx cy a l w r :
  let t := radians (a + r) in
  petal_verts cx cy a l w r =
    [ (cx + l * sin t, cy - l * cos t);
      (cx + 1.2 * l * cos t, cy + 1.2 * l * sin t);
      (cx + l / 2 * cos t - w / 2 * sin t, cy + l / 2 * sin t + w / 2 * cos t);
      (cx + l / 2 * cos t + w / 2 * sin t, cy + l / 2 * sin t - w / 2 * cos t);
      (cx - l * sin t, cy + l * cos t);
      (cx + 0.8 * l * sin t, cy - 0.8 * l * cos t) ]
  /\ petal_codes = [MOVETO; CURVE3; CURVE3; CURVE3; CLOSEPOLY]
  /\ (forall p, In p (petal_verts cx cy a 0 0 r) -> p = (cx, cy)).
Proof.
  intros t. split; [apply petal_verts_frame|split; [reflexivity|]].
  intros p. rewrite petal_verts_frame. cbn [In]. intros Hp.
  repeat (destruct Hp as [Hp|Hp]; [subst p; f_equal; lra|]).
  destruct Hp.
Qed.


End Outline.

(** ** Blooming petals *)


Lemma bloom_progress_le_1 frame st : (bloom_progress frame st <= 1)%R.
Proof. apply Rmin_r. Qed.



Lemma zget_lookup (l : list Z) i v : l !! i = Some v -> zget l i = v.
Proof. unfold zget. now intros ->. Qed.

Section Bloom.

Variable mkPath : list point -> list code -> result Path.


(** The constructor stores the outline it is given. *)
Hypothesis mkPath_stores :
  forall verts cs, mkPath verts cs = Ok (mkPathRecord verts cs).





End Bloom.

(** ** Runs *)

Lemma run_app mkPath fs1 fs2 s :
  run mkPath (fs1 ++ fs2) s = run mkPath fs2 (run mkPath fs1 s).
Proof.
  revert s; induction fs1 as [|f fs1 IH]; intros s; simpl; [reflexivity|].
  apply IH.
Qed.

Lemma frames_upto_S n : frames_upto (S n) = frames_upto n ++ [Z.of_nat n].
Proof.
  unfold frames_upto. rewrite seq_S, map_app. reflexivity.
Qed.

Lemma frames_upto_add n m :
  frames_upto (n + m) = frames_upto n ++ map Z.of_nat (seq n m).
Proof.
  unfold frames_upto. rewrite seq_app, map_app. reflexivity.
Qed.

Lemma ctl_init petals0 : ctl (init_state petals0) = init_control.
Proof. reflexivity. Qed.

Lemma setup_store : setup Path_store = Ok (init_state zero_petals).
Proof. reflexivity. Qed.

Lemma Path_store_accepts verts cs : is_ok (Path_store verts cs) = true.
Proof. reflexivity. Qed.




(** ** The indexed lists keep their lengths *)




(** ** Start frames are set once *)

Lemma starts_stable_refl c : starts_stable c c.
Proof. split; auto. Qed.

Lemma starts_stable_trans c1 c2 c3 :
  starts_stable c1 c2 -> starts_stable c2 c3 -> starts_stable c1 c3.
Proof. intros [H1 H2] [H3 H4]. split; eauto. Qed.

Lemma starts_inv_init : starts_inv init_control.
Proof.
  intros i v Hi Hv. exfalso. apply Hv.
  unfold init_control in Hi. cbn [c_pstarts] in Hi.
  apply lookup_replicate in Hi. tauto.
Qed.

Lemma unfurl_starts_stable frame n i starts k v :
  starts !! k = Some v -> v <> 0%Z ->
  unfurl_starts frame i starts n !! k = Some v.
Proof.
  revert i starts; induction n as [|n IH]; intros i starts Hk Hv;
    [exact Hk|].
  cbn [unfurl_starts]. apply IH; [|exact Hv].
  destruct (_ && _)%bool eqn:Hc; [|exact Hk].
  apply andb_prop in Hc as [Hz _]. apply Z.eqb_eq in Hz.
  destruct (decide (i = k)) as [->|Hne].
  - rewrite (zget_lookup _ _ _ Hk) in Hz. contradiction.
  - rewrite list_lookup_insert_ne by exact Hne. exact Hk.
Qed.

Lemma ctl_step_stable frame c :
  starts_inv c -> starts_stable c (ctl_step frame c).
Proof.
  intros Hinv. unfold ctl_step.
  destruct (c_phase c) as [|[|[|p]]] eqn:Hph.
  - destruct (_ <=? _)%Z; apply starts_stable_refl || (split; auto).
  - destruct (_ && _)%bool eqn:Hc; cbn [c_pstarts c_lstarts];
      (split; cbn [c_pstarts c_lstarts]; [|auto]).
    + intros i v Hi Hv. destruct (Hinv i v Hi Hv) as [_ Hlt].
      rewrite list_lookup_insert_ne by lia. exact Hi.
    + auto.
  - split; cbn [c_pstarts c_lstarts]; [auto|].
    intros i v Hi Hv. now apply unfurl_starts_stable.
  - apply starts_stable_refl.
Qed.

Lemma ctl_step_inv frame c : starts_inv c -> starts_inv (ctl_step frame c).
Proof.
  intros Hinv. unfold ctl_step.
  destruct (c_phase c) as [|[|[|p]]] eqn:Hph.
  - destruct (_ <=? _)%Z.
    + intros i v Hi Hv. cbn [c_pstarts] in Hi.
      destruct (Hinv i v Hi Hv) as [H0 _]. congruence.
    + intros i v Hi Hv.
      destruct (Hinv i v Hi Hv) as [H0 _]. congruence.
  - destruct ((frame mod bloom_stagger =? 0)%Z
              && (c_index c <? num_petals)%nat) eqn:Hc;
      intros i v Hi Hv; cbn [c_pstarts c_phase c_index] in *.
    + split; [case (_ && _)%bool; intros H0; discriminate H0|].
      destruct (decide (i = c_index c)) as [->|Hne]; [lia|].
      rewrite list_lookup_insert_ne in Hi by auto.
      destruct (Hinv i v Hi Hv). lia.
    + split; [case (_ && _)%bool; intros H0; discriminate H0|].
      now destruct (Hinv i v Hi Hv).
  - intros i v Hi Hv. cbn [c_pstarts c_phase c_index] in *.
    split; [case (forallb _ _); intros H0; discriminate H0|].
    now destruct (Hinv i v Hi Hv).
  - intros i v Hi Hv. rewrite Hph. split; [intros H0; discriminate H0|].
    now destruct (Hinv i v Hi Hv).
Qed.

Section Starts.

Variable mkPath : list point -> list code -> result Path.

Lemma animate_starts frame s :
  starts_inv (ctl s) ->
  starts_inv (ctl (animate mkPath frame s).1)
  /\ starts_stable (ctl s) (ctl (animate mkPath frame s).1).
Proof.
  intros Hinv. rewrite animate_ctl_any.
  destruct (is_ok _).
  - split; [now apply ctl_step_inv|now apply ctl_step_stable].
  - split; [exact Hinv|apply starts_stable_refl].
Qed.

Lemma run_starts frames s :
  starts_inv (ctl s) ->
  starts_inv (ctl (run mkPath frames s))
  /\ starts_stable (ctl s) (ctl (run mkPath frames s)).
Proof.
  revert s; induction frames as [|f frames IH]; intros s Hinv;
    cbn [run]; [split; [exact Hinv|apply starts_stable_refl]|].
  destruct (animate_starts f s Hinv) as [H1 H2].
  destruct (IH _ H1) as [H3 H4].
  split; [exact H3|]. eapply starts_stable_trans; eassumption.
Qed.

(** C7: whatever the frames delivered and whatever the path constructor
    does, a petal bloom-start or leaf unfurl-start entry that holds a
    nonzero value after some calls holds the same value after any further
    calls: it leaves 0 at most once and never changes afterwards. *)
Theorem start_frames_set_once petals0 (frames1 frames2 : list Z) i v :
  let s1 := run mkPath frames1 (init_state petals0) in
  let s2 := run mkPath frames2 s1 in
  v <> 0%Z ->
  (petal_bloom_starts s1 !! i = Some v -> petal_bloom_starts s2 !! i = Some v)
  /\ (leaf_unfurl_starts s1 !! i = Some v ->
      leaf_unfurl_starts s2 !! i = Some v).
Proof.
  intros s1 s2 Hv.
  destruct (run_starts frames1 (init_state petals0)) as [Hinv1 _].
  { rewrite ctl_init. apply starts_inv_init. }
  destruct (run_starts frames2 s1 Hinv1) as [_ [Hp Hl]].
  split; intros H; [apply (Hp i v H Hv)|apply (Hl i v H Hv)].
Qed.

End Starts.

(** Witness of C7: petal 0 starts at frame 80 and still holds 80 after
    frame 299. *)
Lemma start_frames_set_once_witness :
  let s1 := run Path_store (frames_upto 81) (init_state zero_petals) in
  let s2 := run Path_store (map Z.of_nat (seq 81 219)) s1 in
  80%Z <> 0%Z
  /\ petal_bloom_starts s1 !! 0%nat = Some 80%Z
  /\ petal_bloom_starts s2 !! 0%nat = Some 80%Z.
Proof.
  intros s1 s2.
  assert (Hv : 80%Z <> 0%Z) by lia.
  assert (H1 : petal_bloom_starts s1 !! 0%nat = Some 80%Z).
  { change (c_pstarts (ctl s1) !! 0%nat = Some 80%Z). unfold s1.
    rewrite (run_ctl Path_store Path_store_accepts), ctl_init.
    vm_compute. reflexivity. }
  split; [exact Hv|split; [exact H1|]].
  exact (proj1 (start_frames_set_once Path_store zero_petals
                  (frames_upto 81) (map Z.of_nat (seq 81 219)) 0 80%Z Hv) H1).
Defined.

(** ** Phases *)

Lemma ctl_step_phase frame c :
  c_phase (ctl_step frame c) = c_phase c
  \/ c_phase (ctl_step frame c) = S (c_phase c).
Proof.
  unfold ctl_step.
  destruct (c_phase c) as [|[|[|p]]] eqn:Hph.
  - destruct (_ <=? _)%Z; cbn [c_phase]; auto.
  - destruct ((frame mod bloom_stagger =? 0)%Z
              && (c_index c <? num_petals)%nat); cbn [c_phase];
      case (_ && _)%bool; auto.
  - cbn [c_phase]. case (forallb _ _); auto.
  - auto.
Qed.

Lemma ctl_step_sway frame c : (3 <= c_phase c)%nat -> ctl_step frame c = c.
Proof.
  intros H. unfold ctl_step.
  destruct (c_phase c) as [|[|[|p]]]; try lia. reflexivity.
Qed.

Lemma ctl_run_sway frames c : (3 <= c_phase c)%nat -> ctl_run frames c = c.
Proof.
  intros H. induction frames as [|f frames IH]; cbn [ctl_run];
    [reflexivity|].
  now rewrite ctl_step_sway.
Qed.

Lemma ctl_run_app fs1 fs2 c :
  ctl_run (fs1 ++ fs2) c = ctl_run fs2 (ctl_run fs1 c).
Proof.
  revert c; induction fs1 as [|f fs1 IH]; intros c; cbn [ctl_run app];
    [reflexivity|apply IH].
Qed.

(** The integer part of the state after the first 381 frames: every petal
    and every leaf has its start frame, and the phase is Sway. *)
Lemma ctl_run_381 :
  ctl_run (frames_upto 381) init_control =
  mkControl 3 12
    [80; 100; 120; 140; 160; 180; 200; 220; 240; 260; 280; 300]%Z
    [360; 350; 360; 350; 360; 350; 0; 0; 0; 0; 0; 0]%Z 6.
Proof. vm_compute. reflexivity. Qed.

Lemma ctl_run_phase_upto_381 :
  forallb (fun n => (c_phase (ctl_run (frames_upto n) init_control)
                     =? phase_after n)%nat) (seq 0 382) = true.
Proof. vm_compute. reflexivity. Qed.

Lemma ctl_run_phase n :
  c_phase (ctl_run (frames_upto n) init_control) = phase_after n.
Proof.
  destruct (le_lt_dec n 381) as [Hle|Hgt].
  - pose proof ctl_run_phase_upto_381 as H.
    rewrite forallb_forall in H.
    apply Nat.eqb_eq, H, in_seq. lia.
  - replace n with (381 + (n - 381))%nat by lia.
    rewrite frames_upto_add, ctl_run_app, ctl_run_381.
    rewrite ctl_run_sway by (cbn [c_phase]; lia).
    unfold phase_after.
    destruct (Nat.leb_spec (381 + (n - 381)) 60); [lia|].
    destruct (Nat.leb_spec (381 + (n - 381)) 340); [lia|].
    destruct (Nat.leb_spec (381 + (n - 381)) 380); [lia|].
    reflexivity.
Qed.




(** ** The centre disk and the stem *)

Section Artists.

Variable mkPath : list point -> list code -> result Path.

(** What a call does to the fields that only some branches touch. *)
Lemma animate_petals_untouched frame s :
  let s' := (animate_petals mkPath frame s).1 in
  center_patch s' = center_patch s /\ stem_line s' = stem_line s
  /\ sway_angle s' = sway_angle s.
Proof.
  unfold animate_petals. simpl_state.
  destruct (for_enumerate _ _ _) as [ps r]. simpl_state.
  destruct r; simpl_state; [|auto].
  destruct (_ && _)%bool; simpl_state; destruct (_ && _)%bool; auto.
Qed.

Lemma animate_sway_untouched m s :
  let s' := (animate_sway mkPath m s).1 in
  center_patch s' = center_patch s /\ stem_line s' = stem_line s
  /\ sway_angle s' = sway_angle s.
Proof.
  unfold animate_sway. simpl_state.
  destruct (for_enumerate _ _ _) as [ps r]. simpl_state.
  destruct r; simpl_state; auto.
Qed.

Lemma animate_center_untouched frame s :
  let s' := animate_center frame s in
  stem_line s' = stem_line s /\ sway_angle s' = sway_angle s.
Proof.
  unfold animate_center. simpl_state. destruct (_ <=? _)%Z; auto.
Qed.

Lemma animate_stem_leaves_untouched frame s :
  let s' := animate_stem_leaves frame s in
  stem_line s' =
    (if (frame =? 0)%Z
     then mkLine2D [0; 0] [center_radius; stem_height] 1
     else stem_line s)%R
  /\ sway_angle s' = sway_angle s.
Proof.
  unfold animate_stem_leaves. simpl_state.
  destruct (frame =? 0)%Z; simpl_state;
    destruct (unfurl_leaves _ _ _ _) as [st ls]; simpl_state;
    destruct (forallb _ _); auto.
Qed.

(** The centre's alpha after a call: the override of lines 247-248 when the
    call returns, the old value when it raises. *)
Lemma animate_center_patch frame s :
  center_patch (animate mkPath frame s).1 =
  if is_ok (animate mkPath frame s).2
  then (if (0 <? animation_phase (animate mkPath frame s).1)%nat
        then 1%R else 0%R)
  else center_patch s.
Proof.
  unfold animate. simpl_state.
  destruct (animation_phase s) as [|[|[|[|p]]]]; try reflexivity.
  - match goal with |- context [animate_petals _ _ ?s0] =>
      pose proof (animate_petals_untouched frame s0) as H;
      destruct (animate_petals mkPath frame s0) as [s' r] end.
    cbn [fst snd] in *. destruct r; cbn [fst snd is_ok]; [reflexivity|].
    apply H.
  - match goal with |- context [animate_sway _ ?m ?s0] =>
      pose proof (animate_sway_untouched m s0) as H;
      destruct (animate_sway mkPath m s0) as [s' r] end.
    cbn [fst snd] in *. destruct r; cbn [fst snd is_ok]; [reflexivity|].
    apply H.
Qed.

(** The stem after a call: drawn only by a call at frame 0 in phase 2. *)
Lemma animate_stem_line frame s :
  stem_line (animate mkPath frame s).1 =
  (if (animation_phase s =? 2)%nat && (frame =? 0)%Z
   then mkLine2D [0; 0] [center_radius; stem_height] 1
   else stem_line s)%R.
Proof.
  unfold animate. simpl_state.
  destruct (animation_phase s) as [|[|[|[|p]]]]; cbn [Nat.eqb andb];
    try reflexivity.
  - match goal with |- context [animate_center _ ?s0] =>
      destruct (animate_center_untouched frame s0) as [H1 H2] end.
    cbn [fst snd]. simpl_state. first [exact H1|exact H2].
  - match goal with |- context [animate_petals _ _ ?s0] =>
      pose proof (animate_petals_untouched frame s0) as H;
      destruct (animate_petals mkPath frame s0) as [s' r] end.
    destruct H as (H1 & H2 & H3).
    cbn [fst snd] in *. destruct r; simpl_state; first [exact H2|exact H3].
  - match goal with |- context [animate_stem_leaves _ ?s0] =>
      destruct (animate_stem_leaves_untouched frame s0) as [H1 H2] end.
    cbn [fst snd]. simpl_state. exact H1.
  - match goal with |- context [animate_sway _ ?m ?s0] =>
      pose proof (animate_sway_untouched m s0) as H;
      destruct (animate_sway mkPath m s0) as [s' r] end.
    destruct H as (H1 & H2 & H3).
    cbn [fst snd] in *. destruct r; simpl_state; first [exact H2|exact H3].
Qed.

(** The sway angle after a call, whatever the phase and the outcome. *)
Lemma animate_sway_angle frame s :
  sway_angle (animate mkPath frame s).1 = (sway_angle s + sway_speed)%R.
Proof.
  unfold animate. simpl_state.
  destruct (animation_phase s) as [|[|[|[|p]]]]; try reflexivity.
  - match goal with |- context [animate_center _ ?s0] =>
      destruct (animate_center_untouched frame s0) as [H1 H2] end.
    cbn [fst snd]. simpl_state. first [exact H1|exact H2].
  - match goal with |- context [animate_petals _ _ ?s0] =>
      pose proof (animate_petals_untouched frame s0) as H;
      destruct (animate_petals mkPath frame s0) as [s' r] end.
    destruct H as (H1 & H2 & H3).
    cbn [fst snd] in *. destruct r; simpl_state; first [exact H2|exact H3].
  - match goal with |- context [animate_stem_leaves _ ?s0] =>
      destruct (animate_stem_leaves_untouched frame s0) as [H1 H2] end.
    cbn [fst snd]. simpl_state. exact H2.
  - match goal with |- context [animate_sway _ ?m ?s0] =>
      pose proof (animate_sway_untouched m s0) as H;
      destruct (animate_sway mkPath m s0) as [s' r] end.
    destruct H as (H1 & H2 & H3).
    cbn [fst snd] in *. destruct r; simpl_state; first [exact H2|exact H3].
Qed.

End Artists.

(** ** The sway angle *)

Section Sway.

Variable mkPath : list point -> list code -> result Path.

Lemma run_sway_angle frames s :
  sway_angle (run mkPath frames s)
  = (sway_angle s + INR (length frames) * sway_speed)%R.
Proof.
  revert s; induction frames as [|f frames IH]; intros s.
  - cbn [run length INR]. ring.
  - cbn [run]. rewrite IH, animate_sway_angle.
    change (length (f :: frames)) with (S (length frames)).
    rewrite S_INR. ring.
Qed.

(** In phase 3 the petals and the leaves after the call are those of the
    two loops, run with the rotation matrix of the angle already
    incremented by this call. *)
Lemma animate_sway_loops frame s :
  animation_phase s = 3 ->
  let m := get_rotation_matrix (sway_angle s + sway_speed) in
  petals (animate mkPath frame s).1
    = (for_enumerate (sway_petal mkPath m) 0 (petals s)).1
  /\ (is_ok (animate mkPath frame s).2 = true ->
      leaves (animate mkPath frame s).1 = imap (sway_leaf m) (leaves s)).
Proof.
  intros Hph m. unfold animate. simpl_state. rewrite Hph.
  unfold animate_sway. simpl_state. fold m.
  destruct (for_enumerate _ _ _) as [ps r]. simpl_state.
  destruct r; simpl_state; cbn [is_ok]; split; auto; discriminate.
Qed.

(** C10: whatever the frames delivered, the phases gone through and the
    outcome of the calls, after [n] calls from the set-up state the sway
    angle is [n * sway_speed] (in exact arithmetic); the next call works
    with the angle [(n + 1) * sway_speed > 0], and when that call is made
    in the Sway phase its petal and leaf loops use the rotation matrix of
    that nonzero angle. *)
Theorem sway_angle_accumulates petals0 frames frame :
  let s := run mkPath frames (init_state petals0) in
  let s' := (animate mkPath frame s).1 in
  let a := (INR (S (length frames)) * sway_speed)%R in
  sway_angle s = (INR (length frames) * sway_speed)%R
  /\ sway_angle s' = a
  /\ (0 < a)%R
  /\ (animation_phase s = 3 ->
      petals s'
        = (for_enumerate (sway_petal mkPath (get_rotation_matrix a)) 0
             (petals s)).1
      /\ (is_ok (animate mkPath frame s).2 = true ->
          leaves s' = imap (sway_leaf (get_rotation_matrix a)) (leaves s))).
Proof.
  intros s s' a.
  assert (Hs : sway_angle s = (INR (length frames) * sway_speed)%R).
  { unfold s. rewrite run_sway_angle. cbn [init_state sway_angle]. ring. }
  assert (Ha : (sway_angle s + sway_speed)%R = a).
  { unfold a. rewrite Hs, S_INR. ring. }
  split; [exact Hs|split; [|split]].
  - unfold s'. rewrite animate_sway_angle. exact Ha.
  - unfold a, sway_speed.
    pose proof (pos_INR (length frames)). rewrite S_INR. nra.
  - intros Hph. rewrite <- Ha. apply animate_sway_loops. exact Hph.
Qed.

End Sway.

(** Witness of C10: the first call in the Sway phase of the in-order run is
    the one at frame 381; it is the 382nd call and rotates by 382 times
    0.03. *)
Lemma sway_angle_accumulates_witness :
  let s := run Path_store (frames_upto 381) (init_state zero_petals) in
  let s' := (animate Path_store 381 s).1 in
  animation_phase (run Path_store (frames_upto 380) (init_state zero_petals))
    = 2
  /\ animation_phase s = 3
  /\ sway_angle s' = (INR 382 * sway_speed)%R
  /\ leaves s'
     = imap (sway_leaf (get_rotation_matrix (INR 382 * sway_speed))) (leaves s).
Proof.
  intros s s'.
  assert (Hc : forall n,
             animation_phase
               (run Path_store (frames_upto n) (init_state zero_petals))
             = phase_after n).
  { intros n.
    change (c_phase (ctl (run Path_store (frames_upto n)
                            (init_state zero_petals))) = phase_after n).
    rewrite (run_ctl Path_store Path_store_accepts), ctl_init.
    apply ctl_run_phase. }
  assert (Hph : animation_phase s = 3) by (unfold s; rewrite Hc; reflexivity).
  destruct (sway_angle_accumulates Path_store zero_petals (frames_upto 381)
              381%Z) as (_ & Ha & _ & Hsw).
  destruct (Hsw Hph) as [_ Hl].
  assert (Hn : length (frames_upto 381) = 381%nat).
  { unfold frames_upto. rewrite length_map, length_seq. reflexivity. }
  rewrite Hn in Ha, Hl.
  split; [rewrite Hc; reflexivity|].
  split; [exact Hph|]. split; [exact Ha|].
  apply Hl. rewrite (animate_returns Path_store Path_store_accepts).
  reflexivity.
Defined.

(** ** The in-order run: centre disk and stem *)

Section InOrder.

Variable mkPath : list point -> list code -> result Path.
Variable petals0 : list PathPatch.

(** The state after the first [n] frames 0, ..., n-1. *)
Let after (n : nat) : state :=
  run mkPath (frames_upto n) (init_state petals0).

Lemma after_S n : after (S n) = (animate mkPath (Z.of_nat n) (after n)).1.
Proof.
  unfold after. rewrite frames_upto_S, run_app. reflexivity.
Qed.

(** A call in the Center phase returns, moves to the Petals phase from
    frame 60 on, and sets the title's alpha to the fade-in fraction. *)
Lemma animate_in_center frame s :
  animation_phase s = 0 ->
  let s' := (animate mkPath frame s).1 in
  is_ok (animate mkPath frame s).2 = true
  /\ animation_phase s' = (if (60 <=? frame)%Z then 1 else 0)
  /\ text_alpha (title_text s')
     = Rmin (IZR frame / IZR center_fade_duration) 1.
Proof.
  intros Hph. unfold animate. simpl_state. rewrite Hph.
  cbn [fst snd is_ok]. unfold animate_center. simpl_state.
  change (center_fade_duration + phase_delay)%Z with 60%Z.
  destruct (60 <=? frame)%Z; simpl_state; rewrite ?Hph; auto.
Qed.

Lemma phase_stays_positive frame s :
  (1 <= animation_phase s)%nat ->
  (1 <= animation_phase (animate mkPath frame s).1)%nat.
Proof.
  intros H.
  change (1 <= c_phase (ctl (animate mkPath frame s).1))%nat.
  rewrite animate_ctl_any. destruct (is_ok _); [|exact H].
  change (animation_phase s) with (c_phase (ctl s)) in H.
  destruct (ctl_step_phase frame (ctl s)) as [-> | ->]; lia.
Qed.

Lemma center_in_order n :
  ((n <= 60)%nat ->
   animation_phase (after n) = 0 /\ center_patch (after n) = 0%R)
  /\ ((60 < n)%nat ->
      (1 <= animation_phase (after n))%nat /\ center_patch (after n) = 1%R).
Proof.
  induction n as [|n [IH1 IH2]].
  - split; [intros _; split; reflexivity|lia].
  - rewrite after_S. split; intros Hn.
    + destruct IH1 as [Hph Hc]; [lia|].
      destruct (animate_in_center (Z.of_nat n) _ Hph) as (Hok & Hph' & _).
      rewrite animate_center_patch, Hok, Hph'.
      destruct (Z.leb_spec 60 (Z.of_nat n)); [lia|]. auto.
    + destruct (Nat.eq_dec n 60) as [->|Hne].
      * destruct IH1 as [Hph Hc]; [lia|].
        destruct (animate_in_center (Z.of_nat 60) _ Hph) as (Hok & Hph' & _).
        rewrite animate_center_patch, Hok, Hph'. cbn. auto.
      * destruct IH2 as [Hph Hc]; [lia|].
        pose proof (phase_stays_positive (Z.of_nat n) _ Hph) as Hph'.
        split; [exact Hph'|].
        rewrite animate_center_patch.
        destruct (is_ok _); [|exact Hc].
        destruct (Nat.ltb_spec 0
                    (animation_phase (animate mkPath (Z.of_nat n) (after n)).1));
          [reflexivity|lia].
Qed.

(** C2 (refuted on the code): on the in-order run the centre disk's alpha
    after the call at frame [f] is 0 for every [f < 60] and 1 from frame 60
    on, because the override of lines 247-248 replaces the fade-in value
    of line 142; the title, set from the same fraction on line 143 and not
    overridden, has alpha [min (f / 40) 1] during the Center phase.  At
    frame 20 the disk has alpha 0 where the fraction is 1/2. *)
Theorem center_fade_overridden f :
  center_patch (after (S f)) = (if (f <? 60)%nat then 0 else 1)%R
  /\ ((f <= 60)%nat ->
      text_alpha (title_text (after (S f)))
      = Rmin (IZR (Z.of_nat f) / IZR center_fade_duration) 1)
  /\ center_patch (after 21) = 0%R
  /\ Rmin (IZR 20 / IZR center_fade_duration) 1 = (1 / 2)%R.
Proof.
  assert (H : forall k, center_patch (after (S k))
                        = (if (k <? 60)%nat then 0 else 1)%R).
  { intros k. destruct (center_in_order (S k)) as [H1 H2].
    destruct (Nat.ltb_spec k 60); [apply H1; lia|apply H2; lia]. }
  split; [apply H|split; [|split]].
  - intros Hf. rewrite after_S.
    destruct (center_in_order f) as [[Hph _] _]; [exact Hf|].
    apply (animate_in_center (Z.of_nat f) _ Hph).
  - apply (H 20%nat).
  - unfold center_fade_duration. rewrite Rmin_left; lra.
Qed.

Lemma frames_repeating_first n :
  (n <= total_frames)%nat -> frames_repeating n = frames_upto n.
Proof.
  intros Hn. unfold frames_repeating, frames_upto.
  apply map_ext_in. intros k Hk. apply in_seq in Hk.
  rewrite Nat.mod_small by lia. reflexivity.
Qed.

Lemma frames_repeating_add n m :
  frames_repeating (n + m)
  = frames_repeating n
    ++ map (fun k => Z.of_nat (k mod total_frames)) (seq n m).
Proof.
  unfold frames_repeating. rewrite seq_app, map_app. reflexivity.
Qed.

(** Once in the Sway phase, no call changes the phase or the stem. *)
Lemma sway_keeps_stem frames s :
  animation_phase s = 3 ->
  animation_phase (run mkPath frames s) = 3
  /\ stem_line (run mkPath frames s) = stem_line s.
Proof.
  revert s; induction frames as [|f frames IH]; intros s Hph; cbn [run];
    [auto|].
  assert (Hph' : animation_phase (animate mkPath f s).1 = 3).
  { change (c_phase (ctl (animate mkPath f s).1) = 3).
    rewrite animate_ctl_any. destruct (is_ok _); [|exact Hph].
    rewrite ctl_step_sway; [exact Hph|].
    change (c_phase (ctl s)) with (animation_phase s). lia. }
  destruct (IH _ Hph') as [H1 H2]. split; [exact H1|].
  rewrite H2, animate_stem_line, Hph. reflexivity.
Qed.

(** C3 (refuted on the code): the stem is drawn only by a call at frame 0
    made in phase 2; on the in-order run frame 0 is the first call, made in
    phase 0, so after any number of calls the stem line still has no data
    and alpha 0.  With a constructor that accepts the outlines the
    StemLeaves phase is entered by the call at frame 340 and its first
    call is the one at frame 341; and when the host repeats the frames
    after frame 599, frame 0 comes back in the Sway phase, so the stem is
    not drawn then either. *)
Theorem stem_never_drawn n :
  stem_line (after n) = mkLine2D [] [] 0
  /\ ((forall verts cs, is_ok (mkPath verts cs) = true) ->
      animation_phase (after 340) = 1 /\ animation_phase (after 341) = 2
      /\ line_alpha (stem_line (after 342)) = 0%R
      /\ stem_line (run mkPath (frames_repeating n) (init_state petals0))
         = mkLine2D [] [] 0).
Proof.
  assert (H : forall k, stem_line (after k) = mkLine2D [] [] 0).
  { induction k as [|k IH]; [reflexivity|].
    rewrite after_S, animate_stem_line, IH.
    destruct k as [|k].
    - reflexivity.
    - destruct (Z.eqb_spec (Z.of_nat (S k)) 0); [lia|].
      rewrite andb_false_r. reflexivity. }
  split; [apply H|].
  intros Hmk.
  assert (Hc : forall k, animation_phase (after k) = phase_after k).
  { intros k. change (c_phase (ctl (after k)) = phase_after k).
    unfold after. rewrite (run_ctl mkPath Hmk), ctl_init.
    apply ctl_run_phase. }
  rewrite !Hc, H. repeat split; try reflexivity.
  destruct (le_lt_dec n total_frames) as [Hle|Hgt].
  - rewrite frames_repeating_first by exact Hle. apply H.
  - replace n with (total_frames + (n - total_frames))%nat by lia.
    rewrite frames_repeating_add, run_app.
    rewrite frames_repeating_first by lia.
    fold (after total_frames).
    destruct (sway_keeps_stem
                (map (fun k => Z.of_nat (k mod total_frames))
                   (seq total_frames (n - total_frames)))
                (after total_frames)) as [_ Hs].
    + rewrite Hc. reflexivity.
    + rewrite Hs. apply H.
Qed.

End InOrder.

(** ** The petal schedule of the in-order run *)





Lemma ctl_fields s c :
  ctl s = c ->
  animation_phase s = c_phase c /\ current_petal_index s = c_index c
  /\ petal_bloom_starts s = c_pstarts c
  /\ leaf_unfurl_starts s = c_lstarts c.
Proof. intros <-. repeat split. Qed.

Section Schedule.

Variable mkPath : list point -> list code -> result Path.
Hypothesis mkPath_stores :
  forall verts cs, mkPath verts cs = Ok (mkPathRecord verts cs).
Variable petals0 : list PathPatch.
Hypothesis petals0_length : length petals0 = num_petals.

Let after (n : nat) : state :=
  run mkPath (frames_upto n) (init_state petals0).



End Schedule.



(** ** Progress fractions *)



Section Fractions.

Variable mkPath : list point -> list code -> result Path.




End Fractions.


Lemma store_after_ctl n :
  ctl (run Path_store (frames_upto n) (init_state zero_petals))
  = ctl_run (frames_upto n) init_control.
Proof.
  rewrite (run_ctl Path_store Path_store_accepts), ctl_init. reflexivity.
Qed.





(** * Further properties of the helpers and of the driver *)

(** ** The rotation matrix *)

Section Rotation.
Local Open Scope R_scope.

(** X1: the matrix of [get_rotation_matrix] moves no point nearer to or
    farther from the origin: the rotated offset of a petal or a leaf keeps
    its distance from the flower's centre, whatever the sway angle. *)
Theorem rotation_keeps_distance a v :
  dist2 (matvec (get_rotation_matrix a) v) (0, 0) = dist2 v (0, 0)
  /\ dist (matvec (get_rotation_matrix a) v) (0, 0) = dist v (0, 0).
Proof.
  assert (H : dist2 (matvec (get_rotation_matrix a) v) (0, 0)
              = dist2 v (0, 0)).
  { destruct v as [x y]. unfold dist2, matvec, get_rotation_matrix.
    cbn [fst snd].
    pose proof (sin2_cos2 a) as Hsc. unfold Rsqr in Hsc.
    set (c := cos a) in *. set (sn := sin a) in *.
    transitivity ((x * x + y * y) * (sn * sn + c * c)); [ring|].
    rewrite Hsc. ring. }
  split; [exact H|]. unfold dist. now rewrite H.
Qed.

(** X2: rotating by [b] and then by [a] is rotating by [a + b], and the
    matrix of angle 0 moves nothing: the sway of successive frames composes
    as the sum of the angles. *)
Theorem rotation_composes a b v :
  matvec (get_rotation_matrix a) (matvec (get_rotation_matrix b) v)
    = matvec (get_rotation_matrix (a + b)) v
  /\ matvec (get_rotation_matrix 0) v = v.
Proof.
  destruct v as [x y]. unfold matvec, get_rotation_matrix. split.
  - rewrite cos_plus, sin_plus. f_equal; ring.
  - rewrite cos_0, sin_0. f_equal; ring.
Qed.

Lemma get_rotation_matrix_period a :
  get_rotation_matrix (a + 2 * PI) = get_rotation_matrix a.
Proof.
  unfold get_rotation_matrix.
  rewrite cos_plus, sin_plus, cos_2PI, sin_2PI.
  repeat f_equal; ring.
Qed.

(** X3: the sway is periodic in the angle: with the sway angle advanced by
    a full turn, the leaf loop and the petal loop of the Sway phase place
    every leaf and build every petal exactly as before. *)
Theorem sway_period (mkPath : list point -> list code -> result Path)
    a i leaf petal :
  sway_leaf (get_rotation_matrix (a + 2 * PI)) i leaf
    = sway_leaf (get_rotation_matrix a) i leaf
  /\ sway_petal mkPath (get_rotation_matrix (a + 2 * PI)) i petal
     = sway_petal mkPath (get_rotation_matrix a) i petal.
Proof.
  rewrite get_rotation_matrix_period. split; reflexivity.
Qed.

End Rotation.

(** ** What a call does to the artists *)

Section ArtistCases.

Variable mkPath : list point -> list code -> result Path.

(** The leaves after a call: those of the leaf loop of phase 2, those of
    the leaf loop of phase 3 when its petal loop returned, and the old ones
    otherwise. *)
Lemma animate_leaves_cases frame s :
  leaves (animate mkPath frame s).1 = leaves s
  \/ leaves (animate mkPath frame s).1
     = (unfurl_leaves frame 0 (leaf_unfurl_starts s) (leaves s)).2
  \/ exists m, leaves (animate mkPath frame s).1 = imap (sway_leaf m) (leaves s).
Proof.
  unfold animate. simpl_state.
  destruct (animation_phase s) as [|[|[|[|p]]]] eqn:Hph.
  - left. cbn [fst snd]. unfold animate_center. simpl_state.
    destruct (_ <=? _)%Z; reflexivity.
  - left. unfold animate_petals. simpl_state.
    destruct (for_enumerate _ _ _) as [ps r]. simpl_state.
    destruct r; simpl_state; [|reflexivity].
    destruct ((frame mod bloom_stagger =? 0)%Z
              && (current_petal_index s <? num_petals)%nat); simpl_state;
      case (_ && _)%bool; reflexivity.
  - right; left. cbn [fst snd]. unfold animate_stem_leaves. simpl_state.
    destruct (frame =? 0)%Z; simpl_state;
      destruct (unfurl_leaves _ _ _ _) as [st ls]; simpl_state;
      destruct (forallb _ _); reflexivity.
  - unfold animate_sway. simpl_state.
    destruct (for_enumerate _ _ _) as [ps r]. simpl_state.
    destruct r; simpl_state; [right; right; eexists; reflexivity|now left].
  - now left.
Qed.


(** The alpha of the phase label after a call. *)
Lemma animate_label_alpha frame s :
  text_alpha (phase_label (animate mkPath frame s).1) =
  match animation_phase s with
  | 0 => if (frame <? label_duration * 2)%Z
         then Rmin (IZR (frame mod (label_duration * 2))
                    / IZR label_duration) 1
         else 0%R
  | 1 | 2 => label_fade frame
  | 3 => 0.7%R
  | _ => text_alpha (phase_label s)
  end.
Proof.
  unfold animate. simpl_state.
  destruct (animation_phase s) as [|[|[|[|p]]]] eqn:Hph.
  - cbn [fst snd]. unfold animate_center. simpl_state.
    destruct (_ <=? _)%Z; reflexivity.
  - unfold animate_petals. simpl_state.
    destruct (for_enumerate _ _ _) as [ps r]. simpl_state.
    destruct r; simpl_state; [|reflexivity].
    destruct ((frame mod bloom_stagger =? 0)%Z
              && (current_petal_index s <? num_petals)%nat); simpl_state;
      case (_ && _)%bool; reflexivity.
  - cbn [fst snd]. unfold animate_stem_leaves. simpl_state.
    destruct (frame =? 0)%Z; simpl_state;
      destruct (unfurl_leaves _ _ _ _) as [st ls]; simpl_state;
      destruct (forallb _ _); reflexivity.
  - unfold animate_sway. simpl_state.
    destruct (for_enumerate _ _ _) as [ps r]. simpl_state.
    destruct r; reflexivity.
  - reflexivity.
Qed.


End ArtistCases.

(** ** The phase label *)

Lemma label_fade_bounds frame : (0 <= label_fade frame <= 1)%R.
Proof.
  unfold label_fade, label_duration.
  change (10 * 3)%Z with 30%Z.
  pose proof (Z.mod_pos_bound frame 30 ltac:(lia)) as [Hlo Hhi].
  apply IZR_le in Hlo.
  set (r := IZR (frame mod 30)) in *.
  destruct (Rlt_dec (r / 10) 1) as [Hlt|Hge].
  - rewrite Rmin_left by lra. lra.
  - split; [apply Rmax_r|]. apply Rmax_lub; lra.
Qed.

(** X4: the fade pattern of the phase label in the Petals and StemLeaves
    phases is a blink of period 30 frames: it rises linearly from 0 to 1
    over frames 0..10 of each period, falls back to 0 over frames 10..20,
    and stays 0 for the last ten; it never leaves [0, 1]. *)
Theorem label_fade_shape frame :
  let r := (frame mod 30)%Z in
  label_fade frame
    = (if (r <? 10)%Z then IZR r / 10
       else if (r <? 20)%Z then 2 - IZR r / 10
       else 0)%R
  /\ label_fade (frame + 30) = label_fade frame
  /\ (0 <= label_fade frame <= 1)%R.
Proof.
  intros r. split; [|split; [|apply label_fade_bounds]].
  - unfold label_fade, label_duration.
    change (10 * 3)%Z with 30%Z. fold r.
    pose proof (Z.mod_pos_bound frame 30 ltac:(lia)) as [Hlo Hhi]. fold r in Hlo, Hhi.
    destruct (Z.ltb_spec r 10) as [H10|H10].
    + apply IZR_lt in H10. apply IZR_le in Hlo.
      destruct (Rlt_dec (IZR r / 10) 1) as [_|Hn]; [|exfalso; apply Hn; lra].
      apply Rmin_left. lra.
    + apply IZR_le in H10.
      destruct (Rlt_dec (IZR r / 10) 1) as [Hl|_]; [exfalso; lra|].
      destruct (Z.ltb_spec r 20) as [H20|H20].
      * apply IZR_lt in H20. apply Rmax_left. lra.
      * apply IZR_le in H20. apply Rmax_right. lra.
  - unfold label_fade, label_duration. change (10 * 3)%Z with 30%Z.
    replace ((frame + 30) mod 30)%Z with (frame mod 30)%Z; [reflexivity|].
    rewrite <- (Z_mod_plus_full frame 1 30). f_equal.
Qed.

Section ArtistInvariants.

Variable mkPath : list point -> list code -> result Path.

Lemma animate_label_bounds frame s :
  (0 <= text_alpha (phase_label s) <= 1)%R ->
  (0 <= text_alpha (phase_label (animate mkPath frame s).1) <= 1)%R.
Proof.
  intros H. rewrite animate_label_alpha.
  destruct (animation_phase s) as [|[|[|[|p]]]].
  - unfold label_duration. change (10 * 2)%Z with 20%Z.
    destruct (frame <? 20)%Z; [|lra].
    pose proof (Z.mod_pos_bound frame 20 ltac:(lia)) as [Hlo _].
    apply IZR_le in Hlo.
    split; [apply Rmin_glb; lra|apply Rmin_r].
  - apply label_fade_bounds.
  - apply label_fade_bounds.
  - lra.
  - exact H.
Qed.

(** X5: whatever the frames delivered (any integers, in any order) and
    whatever the path constructor does, the alpha given to the phase label
    stays within [0, 1]. *)
Theorem label_alpha_in_range petals0 frames :
  (0 <= text_alpha (phase_label (run mkPath frames (init_state petals0)))
   <= 1)%R.
Proof.
  assert (H : forall s,
             (0 <= text_alpha (phase_label s) <= 1)%R ->
             (0 <= text_alpha (phase_label (run mkPath frames s)) <= 1)%R).
  { induction frames as [|f fs IH]; intros s Hs; cbn [run]; [exact Hs|].
    apply IH, animate_label_bounds, Hs. }
  apply H. cbn [init_state phase_label text_alpha]. lra.
Qed.

(** ** The leaves *)

Lemma unfurl_leaves_aspect frame ls i starts :
  Forall (fun l => ell_height l = (ell_width l * 0.7)%R
                   /\ (ell_width l <= leaf_size)%R) ls ->
  Forall (fun l => ell_height l = (ell_width l * 0.7)%R
                   /\ (ell_width l <= leaf_size)%R)
    (unfurl_leaves frame i starts ls).2.
Proof.
  revert i starts; induction ls as [|l ls IH]; intros i starts Hls;
    cbn [unfurl_leaves]; [constructor|].
  inversion Hls as [|? ? Hl Hrest]; subst.
  set (starts1 := if (_ && _)%bool then _ else _).
  specialize (IH (S i) starts1 Hrest).
  destruct (unfurl_leaves frame (S i) starts1 ls) as [starts' rest'].
  cbn [snd] in *. constructor; [|exact IH].
  destruct (0 <? zget starts1 i)%Z; [|exact Hl].
  cbn [ell_height ell_width]. split; [reflexivity|].
  match goal with |- (_ * ?p <= _)%R =>
    assert (Hp : (p <= 1)%R) by apply Rmin_r end.
  unfold leaf_size. nra.
Qed.

Lemma animate_leaves_aspect frame s :
  Forall (fun l => ell_height l = (ell_width l * 0.7)%R
                   /\ (ell_width l <= leaf_size)%R) (leaves s) ->
  Forall (fun l => ell_height l = (ell_width l * 0.7)%R
                   /\ (ell_width l <= leaf_size)%R)
    (leaves (animate mkPath frame s).1).
Proof.
  intros H.
  destruct (animate_leaves_cases mkPath frame s) as [-> | [-> | [m ->]]].
  - exact H.
  - apply unfurl_leaves_aspect, H.
  - apply Forall_lookup. intros k l Hk.
    rewrite list_lookup_imap in Hk.
    destruct (leaves s !! k) as [l0|]; [|discriminate].
    injection Hk as <-. unfold sway_leaf. cbn [ell_height ell_width].
    split; [reflexivity|lra].
Qed.

(** X6: whatever the frames delivered and whatever the path constructor
    does, every leaf keeps height = 0.7 times width and a width of at most
    [leaf_size]. *)
Theorem leaves_aspect petals0 frames :
  Forall (fun l => ell_height l = (ell_width l * 0.7)%R
                   /\ (ell_width l <= leaf_size)%R)
    (leaves (run mkPath frames (init_state petals0))).
Proof.
  assert (H : forall s,
    Forall (fun l => ell_height l = (ell_width l * 0.7)%R
                     /\ (ell_width l <= leaf_size)%R) (leaves s) ->
    Forall (fun l => ell_height l = (ell_width l * 0.7)%R
                     /\ (ell_width l <= leaf_size)%R)
      (leaves (run mkPath frames s))).
  { induction frames as [|f fs IH]; intros s Hs; cbn [run]; [exact Hs|].
    apply IH, animate_leaves_aspect, Hs. }
  apply H. cbn [init_state leaves]. unfold init_leaves, leaf_positions.
  cbn [flat_map app].
  repeat constructor; cbn [ell_height ell_width]; unfold leaf_size; lra.
Qed.

(** ** The title *)


End ArtistInvariants.

(** ** The petals *)


Section Petals.

Variable mkPath : list point -> list code -> result Path.







End Petals.


(** ** Indices stay within the lists *)


Section Bounds.

Variable mkPath : list point -> list code -> result Path.




End Bounds.


(** ** Start frames are frames at which the trigger held *)

Lemma unfurl_starts_residues frame nl n i starts :
  (i + n <= nl)%nat ->
  (forall k v, starts !! k = Some v -> v <> 0%Z ->
               (k < nl)%nat /\ (v mod unfurl_duration = side_delay k)%Z) ->
  forall k v, unfurl_starts frame i starts n !! k = Some v -> v <> 0%Z ->
              (k < nl)%nat /\ (v mod unfurl_duration = side_delay k)%Z.
Proof.
  revert i starts; induction n as [|n IH]; intros i starts Hn Hst;
    cbn [unfurl_starts]; [exact Hst|].
  apply IH; [lia|].
  fold (side_delay i).
  destruct (Z.eqb_spec (zget starts i) 0) as [Hz|Hz]; cbn [andb];
    [|exact Hst].
  destruct (Z.eqb_spec (frame mod unfurl_duration) (side_delay i)) as [Hm|Hm];
    [|exact Hst].
  intros k v Hk Hv.
  destruct (decide (k = i)) as [->|Hne].
  - destruct (decide (i < length starts)%nat) as [Hlt|Hge].
    + rewrite list_lookup_insert_eq in Hk by exact Hlt.
      injection Hk as <-. split; [lia|exact Hm].
    + rewrite list_insert_ge in Hk by lia. exact (Hst i v Hk Hv).
  - rewrite list_lookup_insert_ne in Hk by auto. exact (Hst k v Hk Hv).
Qed.

Lemma ctl_step_residues frame c :
  starts_residues c ->
  starts_residues (ctl_step frame c)
  /\ c_nleaves (ctl_step frame c) = c_nleaves c.
Proof.
  intros [Hp Hl]. unfold ctl_step.
  destruct (c_phase c) as [|[|[|p]]].
  - destruct (_ <=? _)%Z; (split; [split; assumption|reflexivity]).
  - destruct (Z.eqb_spec (frame mod bloom_stagger) 0) as [Hm|Hm];
      cbn [andb]; [|split; [split; assumption|reflexivity]].
    destruct (c_index c <? num_petals)%nat;
      (split; [split; cbn [c_pstarts c_lstarts c_nleaves]|reflexivity]);
      try assumption.
    intros i v Hi Hv.
    destruct (decide (i = c_index c)) as [->|Hne].
    + destruct (decide (c_index c < length (c_pstarts c))%nat) as [Hlt|Hge].
      * rewrite list_lookup_insert_eq in Hi by exact Hlt.
        now injection Hi as <-.
      * rewrite list_insert_ge in Hi by lia. exact (Hp _ v Hi Hv).
    + rewrite list_lookup_insert_ne in Hi by auto. exact (Hp i v Hi Hv).
  - split; [split; cbn [c_pstarts c_lstarts c_nleaves]|reflexivity];
      [exact Hp|].
    apply (unfurl_starts_residues frame (c_nleaves c)); [lia|exact Hl].
  - split; [split; assumption|reflexivity].
Qed.

Lemma starts_residues_init : starts_residues init_control.
Proof.
  split; intros i v Hi Hv; exfalso; apply Hv;
    unfold init_control in Hi; cbn [c_pstarts c_lstarts] in Hi;
    apply lookup_replicate in Hi; tauto.
Qed.

Section Residues.

Variable mkPath : list point -> list code -> result Path.

Lemma run_residues frames s :
  starts_residues (ctl s) -> starts_residues (ctl (run mkPath frames s)).
Proof.
  revert s; induction frames as [|f fs IH]; intros s Hs; cbn [run];
    [exact Hs|].
  apply IH. rewrite animate_ctl_any. destruct (is_ok _); [|exact Hs].
  apply ctl_step_residues, Hs.
Qed.

(** X10: whatever the frames delivered and whatever the path constructor
    does, a petal start frame that is set is a multiple of
    [bloom_stagger]; a leaf start frame that is set belongs to one of the
    leaves (the entries beyond the six leaves stay 0) and is congruent
    modulo [unfurl_duration] to 0 for a left leaf (even index) and to
    [unfurl_stagger] for a right leaf (odd index). *)
Theorem start_frame_residues petals0 frames i v :
  let s := run mkPath frames (init_state petals0) in
  v <> 0%Z ->
  (petal_bloom_starts s !! i = Some v -> (v mod bloom_stagger = 0)%Z)
  /\ (leaf_unfurl_starts s !! i = Some v ->
      (i < length (leaves s))%nat
      /\ (v mod unfurl_duration
          = if (i mod 2 =? 0)%nat then 0 else unfurl_stagger)%Z).
Proof.
  intros s Hv.
  destruct (run_residues frames (init_state petals0)) as [Hp Hl].
  { rewrite ctl_init. apply starts_residues_init. }
  split; intros H; [exact (Hp i v H Hv)|exact (Hl i v H Hv)].
Qed.

End Residues.

(** Witness of X10: the first right leaf, started at frame 350 of the
    in-order run. *)
Lemma start_frame_residues_witness :
  let s := run Path_store (frames_upto 381) (init_state zero_petals) in
  350%Z <> 0%Z
  /\ leaf_unfurl_starts s !! 1%nat = Some 350%Z
  /\ (1 < length (leaves s))%nat
  /\ (350 mod unfurl_duration = unfurl_stagger)%Z.
Proof.
  intros s.
  assert (Hv : 350%Z <> 0%Z) by lia.
  destruct (ctl_fields _ _ (eq_trans (store_after_ctl 381) ctl_run_381))
    as (_ & _ & _ & Hs).
  fold s in Hs. cbn [c_lstarts] in Hs.
  assert (H1 : leaf_unfurl_starts s !! 1%nat = Some 350%Z)
    by (rewrite Hs; reflexivity).
  destruct (proj2 (start_frame_residues Path_store zero_petals
                     (frames_upto 381) 1 350%Z Hv) H1) as [Hi Hm].
  split; [exact Hv|split; [exact H1|split; [exact Hi|exact Hm]]].
Defined.

(** ** Every phase ends with its artists complete *)




Section Completion.

Variable mkPath : list point -> list code -> result Path.
Hypothesis mkPath_stores :
  forall verts cs, mkPath verts cs = Ok (mkPathRecord verts cs).
Variable petals0 : list PathPatch.
Hypothesis petals0_length : length petals0 = num_petals.

Let after (n : nat) : state :=
  run mkPath (frames_upto n) (init_state petals0).




End Completion.


(** ** Leaf opacity when frames do not go backwards *)




Section LeafOpacity.

Variable mkPath : list point -> list code -> result Path.




End LeafOpacity.


(** ** The petals of the Sway phase *)


Section SwayPetals.

Variable mkPath : list point -> list code -> result Path.
Hypothesis mkPath_stores :
  forall verts cs, mkPath verts cs = Ok (mkPathRecord verts cs).



End SwayPetals.

